(** * GenWeb: code-block extraction and preview composition

    A shallow embedding of the two pure pieces of
    [frontend/src/components/MainPanel.jsx]:

    - [extractCodeBlocks], which pulls the [html], [css] and [js] fenced
      blocks out of the text returned by the generation backend with three
      regular expressions, and
    - the [srcDoc] template of [renderPreview], which assembles the preview
      document handed to the [iframe], together with the [linkScript] it
      always appends.

    The second part covers the rest of the component: its seven state
    cells with [handleSubmit], [handleCopy] and [handleLogout] as a
    transition system over the events of the page, and the class toggling
    of [DarkModeToggle.jsx].

    JavaScript strings are sequences of UTF-16 code units and a regular
    expression without the [u] flag matches code unit by code unit, so a
    string is modelled as a list of code units. *)

From Stdlib Require Import NArith Ascii String.
From stdpp Require Import base option list strings gmap.

Set Default Proof Using "Type".

(** ** Strings *)

Definition code_unit := N.
Definition jsstring := list code_unit.

(** A source literal, character by character. *)
Definition lit (s : string) : jsstring :=
  map N_of_ascii (list_ascii_of_string s).

(** The escape [\n] and the double quote. *)
Definition nl : jsstring := [10%N].
Definition dquote : jsstring := [34%N].
Definition backtick : code_unit := 96%N.

(** ** The regular expressions of [extractCodeBlocks]

    The three patterns have one shape, [/```TAG\n([\s\S]*?)```/]: a run of
    literal characters, a capturing group that lazily repeats the class
    [[\s\S]] (every code unit), and the literal [```]. *)

(** Literal characters of a pattern against the input at the current
    position; the result is the input that follows them. *)
Fixpoint match_literal (p s : jsstring) : option jsstring :=
  match p with
  | [] => Some s
  | c :: p' =>
      match s with
      | [] => None
      | d :: s' => if N.eqb c d then match_literal p' s' else None
      end
  end.

(** [([\s\S]*?)] followed by the literal [close]. A lazy quantifier first
    tries the rest of the pattern with the repetitions it already has, and
    only when that fails takes one more code unit; at the end of the input
    there is nothing left to take and the match fails. The result is what
    group 1 captured. *)
Fixpoint lazy_group_until (close s : jsstring) : option jsstring :=
  match match_literal close s with
  | Some _ => Some []
  | None =>
      match s with
      | [] => None
      | c :: s' => option_map (cons c) (lazy_group_until close s')
      end
  end.

(** The whole pattern at one start position. *)
Definition match_here (open close s : jsstring) : option jsstring :=
  match match_literal open s with
  | Some rest => lazy_group_until close rest
  | None => None
  end.

(** [text.match(re)] for a pattern without the [g] flag: the start positions
    are tried from left to right, the end of the input included, and the
    first position at which the pattern matches decides. [None] is the
    [null] of a failed match, [Some cap] a match array whose element 1 is
    [cap]. *)
Fixpoint regexp_match (open close s : jsstring) : option jsstring :=
  match match_here open close s with
  | Some cap => Some cap
  | None =>
      match s with
      | [] => None
      | _ :: s' => regexp_match open close s'
      end
  end.

(** [m?.[1] || ""]: [undefined] when the match is [null], else group 1; the
    operator [||] replaces a falsy left operand, [undefined] or the empty
    string, by the empty string. *)
Definition group1_or_empty (m : option jsstring) : jsstring :=
  match m with
  | Some (c :: cap) => c :: cap
  | Some [] => []
  | None => []
  end.

Definition fence : jsstring := lit "```".
Definition html_open : jsstring := lit "```html" ++ nl.
Definition css_open : jsstring := lit "```css" ++ nl.
Definition js_open : jsstring := lit "```js" ++ nl.

(** ** [extractCodeBlocks] *)

Record CodeBlocks := mkCodeBlocks {
  html : jsstring;
  css : jsstring;
  js : jsstring
}.

Definition extractCodeBlocks (text : jsstring) : CodeBlocks :=
  let html := group1_or_empty (regexp_match html_open fence text) in
  let css := group1_or_empty (regexp_match css_open fence text) in
  let js := group1_or_empty (regexp_match js_open fence text) in
  {| html := html; css := css; js := js |}.

(** The three slots, indexed, so that a statement can range over them. *)
Inductive category := Markup | Style | Behavior.

Definition open_marker (c : category) : jsstring :=
  match c with
  | Markup => html_open
  | Style => css_open
  | Behavior => js_open
  end.

Definition slot (c : category) (b : CodeBlocks) : jsstring :=
  match c with
  | Markup => html b
  | Style => css b
  | Behavior => js b
  end.

(** ** [renderPreview] *)

(** The script appended to every preview document. *)
Definition linkScript : jsstring :=
  nl ++
  lit "        <script>" ++ nl ++
  lit "          window.onload = function () {" ++ nl ++
  lit "            const anchors = document.querySelectorAll('a');" ++ nl ++
  lit "            anchors.forEach(a => {" ++ nl ++
  lit "              a.setAttribute('target', '_blank');" ++ nl ++
  lit "              a.setAttribute('rel', 'noopener noreferrer');" ++ nl ++
  lit "            });" ++ nl ++
  lit "          }" ++ nl ++
  lit "        </script>" ++ nl ++
  lit "      ".

(** The template literal given to the [srcDoc] attribute. *)
Definition srcDoc (code : CodeBlocks) : jsstring :=
  lit "<!DOCTYPE html>" ++ nl ++
  lit "            <html>" ++ nl ++
  lit "              <head>" ++ nl ++
  lit "                <meta charset=" ++ dquote ++ lit "UTF-8" ++ dquote ++
    lit " />" ++ nl ++
  lit "                <style>" ++ css code ++ lit "</style>" ++ nl ++
  lit "              </head>" ++ nl ++
  lit "              <body>" ++ nl ++
  lit "                " ++ html code ++ nl ++
  lit "                <script>" ++ js code ++ lit "</script>" ++ nl ++
  lit "                " ++ linkScript ++ nl ++
  lit "              </body>" ++ nl ++
  lit "            </html>".

(** The values [activeTab] takes: its initial one and the four tab buttons. *)
Inductive tab := Website | HTML | CSS | JS | Preview.

(** What [renderPreview] returns: the code view, the preview frame, or
    nothing when neither branch is taken. *)
Inductive rendered :=
| CodeScroll (pre : jsstring)
| Iframe (doc : jsstring)
| NoElement.

Definition renderPreview (activeTab : tab) (code : CodeBlocks) : rendered :=
  match activeTab with
  | HTML => CodeScroll (html code)
  | CSS => CodeScroll (css code)
  | JS => CodeScroll (js code)
  | Preview => Iframe (srcDoc code)
  | Website => NoElement
  end.

(** ** Vocabulary of the statements *)

(** The position of the leftmost occurrence of [p] in [s], as
    [s.indexOf(p)] computes it, [None] when there is none. *)
Fixpoint first_occurrence (p s : jsstring) : option nat :=
  match match_literal p s with
  | Some _ => Some 0
  | None =>
      match s with
      | [] => None
      | _ :: s' => S <$> first_occurrence p s'
      end
  end.

(** [p] occurs in [s]. *)
Definition occurs (p s : jsstring) : Prop :=
  exists pre post, s = pre ++ p ++ post.

(** [text] has a fenced segment opened by [open]: the marker, some content
    and the closing fence. *)
Definition has_segment (open text : jsstring) : Prop :=
  exists pre content post, text = pre ++ open ++ content ++ fence ++ post.

(** Two segments of one category, anywhere in the text. *)
Definition has_two_segments (open text : jsstring) : Prop :=
  exists pre x between y post,
    text = pre ++ open ++ x ++ fence ++ between ++ open ++ y ++ fence ++ post.

(** The tag of a category's open marker. *)
Definition tag (c : category) : jsstring :=
  match c with
  | Markup => lit "html"
  | Style => lit "css"
  | Behavior => lit "js"
  end.

(** [x] can stand between an open marker and the closing fence: the fence
    that follows it is the first one, that is, [x] holds no three
    consecutive backticks and does not end in a backtick. *)
Definition fence_free (x : jsstring) : Prop :=
  first_occurrence fence (x ++ fence) = Some (length x).

(** The three artifacts written back as fenced segments, one per line, in
    the order of the end-to-end scenario. *)
Definition canonical (a : CodeBlocks) : jsstring :=
  html_open ++ html a ++ fence ++ nl ++
  css_open ++ css a ++ fence ++ nl ++
  js_open ++ js a ++ fence.

(** The fixed text of the template around its four interpolations. *)
Definition before_style : jsstring :=
  lit "<!DOCTYPE html>" ++ nl ++
  lit "            <html>" ++ nl ++
  lit "              <head>" ++ nl ++
  lit "                <meta charset=" ++ dquote ++ lit "UTF-8" ++ dquote ++
    lit " />" ++ nl ++
  lit "                <style>".

Definition style_to_markup : jsstring :=
  lit "</style>" ++ nl ++
  lit "              </head>" ++ nl ++
  lit "              <body>" ++ nl ++
  lit "                ".

Definition markup_to_behavior : jsstring :=
  nl ++ lit "                <script>".

Definition behavior_to_linkScript : jsstring :=
  lit "</script>" ++ nl ++ lit "                ".

Definition after_linkScript : jsstring :=
  nl ++ lit "              </body>" ++ nl ++ lit "            </html>".

(** ** Example inputs *)

Definition cr : jsstring := [13%N].

(** The response text of the end-to-end scenario. *)
Definition scenario : jsstring :=
  lit "```html" ++ nl ++ lit "<h1>Hi</h1>" ++ nl ++ lit "```" ++ nl ++
  lit "```css" ++ nl ++ lit "h1{color:red}" ++ nl ++ lit "```" ++ nl ++
  lit "```js" ++ nl ++ lit "console.log(1)" ++ nl ++ lit "```".

Definition prose_only : jsstring := lit "Sorry, I cannot build that.".

Definition two_html : jsstring :=
  lit "Here you go:" ++ nl ++
  lit "```html" ++ nl ++ lit "<p>one</p>" ++ nl ++ lit "```" ++ nl ++
  lit "or" ++ nl ++
  lit "```html" ++ nl ++ lit "<p>two</p>" ++ nl ++ lit "```".

Definition style_only : jsstring :=
  lit "```css" ++ nl ++ lit "body{margin:0}" ++ nl ++ lit "```".

Definition padded : jsstring :=
  lit "```js" ++ nl ++ nl ++ lit "  let x = 1;  " ++ nl ++ nl ++ lit "```".

Definition unclosed : jsstring :=
  lit "```html" ++ nl ++ lit "<p>cut off".

Definition marker_then_space : jsstring :=
  lit "```html " ++ nl ++ lit "<p>x</p>" ++ nl ++ lit "```".

Definition marker_then_text : jsstring :=
  lit "```html index.html" ++ nl ++ lit "<p>x</p>" ++ nl ++ lit "```".

Definition marker_then_crlf : jsstring :=
  lit "```html" ++ cr ++ nl ++ lit "<p>x</p>" ++ cr ++ nl ++ lit "```".





(** ** The state of [MainPanel] and its handlers *)

(** [String.prototype.trim] removes the white space and line terminator
    code units of ECMAScript from both ends. *)
Definition is_whitespace (c : code_unit) : bool :=
  ((9 <=? c) && (c <=? 13) || (c =? 32) || (c =? 160) || (c =? 5760) ||
   (8192 <=? c) && (c <=? 8202) || (c =? 8232) || (c =? 8233) ||
   (c =? 8239) || (c =? 8287) || (c =? 12288) || (c =? 65279))%N.

Fixpoint trimStart (s : jsstring) : jsstring :=
  match s with
  | [] => []
  | c :: s' => if is_whitespace c then trimStart s' else s
  end.

Definition trimEnd (s : jsstring) : jsstring :=
  reverse (trimStart (reverse s)).

Definition trim (s : jsstring) : jsstring := trimEnd (trimStart s).

(** A string is truthy unless it is empty. *)
Definition truthy (s : jsstring) : bool :=
  match s with
  | [] => false
  | _ :: _ => true
  end.

(** The seven [useState] cells. *)
Record PanelState := mkPanelState {
  prompt : jsstring;
  lastPrompt : jsstring;
  code : CodeBlocks;
  activeTab : tab;
  showSplitLayout : bool;
  copied : bool;
  loading : bool
}.

Definition initialState : PanelState :=
  {| prompt := []; lastPrompt := [];
     code := {| html := []; css := []; js := [] |};
     activeTab := Website; showSplitLayout := false;
     copied := false; loading := false |}.

Definition setPrompt (v : jsstring) (s : PanelState) : PanelState :=
  {| prompt := v; lastPrompt := lastPrompt s; code := code s;
     activeTab := activeTab s; showSplitLayout := showSplitLayout s;
     copied := copied s; loading := loading s |}.

Definition setLastPrompt (v : jsstring) (s : PanelState) : PanelState :=
  {| prompt := prompt s; lastPrompt := v; code := code s;
     activeTab := activeTab s; showSplitLayout := showSplitLayout s;
     copied := copied s; loading := loading s |}.

Definition setCode (v : CodeBlocks) (s : PanelState) : PanelState :=
  {| prompt := prompt s; lastPrompt := lastPrompt s; code := v;
     activeTab := activeTab s; showSplitLayout := showSplitLayout s;
     copied := copied s; loading := loading s |}.

Definition setActiveTab (v : tab) (s : PanelState) : PanelState :=
  {| prompt := prompt s; lastPrompt := lastPrompt s; code := code s;
     activeTab := v; showSplitLayout := showSplitLayout s;
     copied := copied s; loading := loading s |}.

Definition setShowSplitLayout (v : bool) (s : PanelState) : PanelState :=
  {| prompt := prompt s; lastPrompt := lastPrompt s; code := code s;
     activeTab := activeTab s; showSplitLayout := v;
     copied := copied s; loading := loading s |}.

Definition setCopied (v : bool) (s : PanelState) : PanelState :=
  {| prompt := prompt s; lastPrompt := lastPrompt s; code := code s;
     activeTab := activeTab s; showSplitLayout := showSplitLayout s;
     copied := v; loading := loading s |}.

Definition setLoading (v : bool) (s : PanelState) : PanelState :=
  {| prompt := prompt s; lastPrompt := lastPrompt s; code := code s;
     activeTab := activeTab s; showSplitLayout := showSplitLayout s;
     copied := copied s; loading := v |}.

(** [handleSubmit] up to its [await]: the early return, or the three state
    updates and the body [{ prompt }] of the request it posts. *)
Definition handleSubmit (s : PanelState) : PanelState * option jsstring :=
  if negb (truthy (trim (prompt s))) || loading s then (s, None)
  else (setLastPrompt (prompt s)
          (setLoading true (setShowSplitLayout true s)),
        Some (prompt s)).

(** How the awaited request ends: with a response whose [code] field is the
    given text, or with an exception inside the [try] block, be it a
    rejected request or a response without a string to match on. *)
Inductive response :=
| Generated (text : jsstring)
| Failed.

(** [handleSubmit] after its [await]. *)
Definition handleSubmit_resume (r : response) (s : PanelState) : PanelState :=
  let s :=
    match r with
    | Generated text => setCode (extractCodeBlocks text) s
    | Failed => s
    end in
  setPrompt [] (setLoading false s).

(** [activeTab] as the string the component stores. *)
Definition tab_name (t : tab) : string :=
  match t with
  | Website => "Website"
  | HTML => "HTML"
  | CSS => "CSS"
  | JS => "JS"
  | Preview => "Preview"
  end.

(** [toLowerCase] on the ASCII letters, all that tab names are made of. *)
Definition ascii_toLowerCase (a : ascii) : ascii :=
  let n := N_of_ascii a in
  if ((65 <=? n) && (n <=? 90))%N then ascii_of_N (n + 32) else a.

Fixpoint toLowerCase (s : string) : string :=
  match s with
  | EmptyString => EmptyString
  | String a s' => String (ascii_toLowerCase a) (toLowerCase s')
  end.

(** [code[key]]: the three own properties of the object, [undefined] for
    any other key. *)
Definition code_property (key : string) (c : CodeBlocks) : option jsstring :=
  if bool_decide (key = "html"%string) then Some (html c)
  else if bool_decide (key = "css"%string) then Some (css c)
  else if bool_decide (key = "js"%string) then Some (js c)
  else None.

(** [handleCopy]: the text handed to [navigator.clipboard.writeText], if
    any. *)
Definition handleCopy (s : PanelState) : option jsstring :=
  match code_property (toLowerCase (tab_name (activeTab s))) (code s) with
  | Some (c :: t) => Some (c :: t)
  | Some [] => None
  | None => None
  end.

(** Pieces of the rendered panel. *)
Inductive status := Creating | Ready.

Definition statusMessage (s : PanelState) : list status :=
  (if loading s && truthy (lastPrompt s) then [Creating] else []) ++
  (if negb (loading s) && truthy (lastPrompt s) then [Ready] else []).

Definition generateDisabled (s : PanelState) : bool :=
  negb (truthy (trim (prompt s))) || loading s.

Definition copyButtonShown (s : PanelState) : bool :=
  match activeTab s with
  | HTML | CSS | JS => true
  | Website | Preview => false
  end.

(** The component together with what it has started and not yet heard
    back from: the posted requests, the clipboard writes, the timers that
    reset [copied]; and the last text it put on the clipboard. *)
Record System := mkSystem {
  ui : PanelState;
  inflight : list jsstring;
  writes : list jsstring;
  timers : nat;
  lastWritten : option jsstring
}.

Definition initialSystem : System :=
  {| ui := initialState; inflight := []; writes := []; timers := 0;
     lastWritten := None |}.

Definition with_ui (s : PanelState) (m : System) : System :=
  {| ui := s; inflight := inflight m; writes := writes m;
     timers := timers m; lastWritten := lastWritten m |}.

Inductive event :=
| Input (v : jsstring)
| Submit
| Settle (r : response)
| SelectTab (t : tab)
| CopyClick
| ClipboardDone
| ClipboardRefused
| CopiedTimeout.

(** One event. [None] when the page offers no way to raise it: the inputs
    are disabled while loading, the tab and copy buttons exist only in the
    split layout (the copy button only on a code tab), and a promise or a
    timer must have been started to complete. *)
Definition step (m : System) (e : event) : option System :=
  match e with
  | Input v =>
      if loading (ui m) then None else Some (with_ui (setPrompt v (ui m)) m)
  | Submit =>
      let '(s, request) := handleSubmit (ui m) in
      Some {| ui := s; inflight := inflight m ++ option_list request;
              writes := writes m; timers := timers m;
              lastWritten := lastWritten m |}
  | Settle r =>
      match inflight m with
      | [] => None
      | _ :: rest =>
          Some {| ui := handleSubmit_resume r (ui m); inflight := rest;
                  writes := writes m; timers := timers m;
                  lastWritten := lastWritten m |}
      end
  | SelectTab t =>
      match t with
      | Website => None
      | _ =>
          if showSplitLayout (ui m)
          then Some (with_ui (setActiveTab t (ui m)) m)
          else None
      end
  | CopyClick =>
      if showSplitLayout (ui m) && copyButtonShown (ui m)
      then Some {| ui := ui m; inflight := inflight m;
                   writes := writes m ++ option_list (handleCopy (ui m));
                   timers := timers m; lastWritten := lastWritten m |}
      else None
  | ClipboardDone =>
      match writes m with
      | [] => None
      | text :: rest =>
          Some {| ui := setCopied true (ui m); inflight := inflight m;
                  writes := rest; timers := S (timers m);
                  lastWritten := Some text |}
      end
  | ClipboardRefused =>
      match writes m with
      | [] => None
      | _ :: rest =>
          Some {| ui := ui m; inflight := inflight m; writes := rest;
                  timers := timers m; lastWritten := lastWritten m |}
      end
  | CopiedTimeout =>
      match timers m with
      | 0 => None
      | S n =>
          Some {| ui := setCopied false (ui m); inflight := inflight m;
                  writes := writes m; timers := n;
                  lastWritten := lastWritten m |}
      end
  end.

Fixpoint run (m : System) (es : list event) : option System :=
  match es with
  | [] => Some m
  | e :: es' =>
      match step m e with
      | Some m' => run m' es'
      | None => None
      end
  end.

Definition reachable (m : System) : Prop :=
  exists es, run initialSystem es = Some m.

(** A first session: a prompt, its answer, a look at the markup, a copy. *)
Definition first_session : list event :=
  [Input (lit "a greeting page"); Submit; Settle (Generated scenario);
   SelectTab HTML; CopyClick; ClipboardDone].

Definition after_first_session : System :=
  default initialSystem (run initialSystem first_session).

(** The moment between a submission and its answer. *)
Definition awaiting_answer : System :=
  default initialSystem
    (run initialSystem [Input (lit "a greeting page"); Submit]).

(** What every state of the panel satisfies. *)
Definition all_whitespace (s : jsstring) : Prop :=
  Forall (fun c => is_whitespace c = true) s.

Definition panel_invariant (m : System) : Prop :=
  inflight m = (if loading (ui m) then [lastPrompt (ui m)] else []) /\
  showSplitLayout (ui m) = truthy (trim (lastPrompt (ui m))) /\
  (showSplitLayout (ui m) = false ->
   activeTab (ui m) = Website /\ loading (ui m) = false /\
   lastPrompt (ui m) = [] /\ code (ui m) = code initialState) /\
  (exists text, code (ui m) = extractCodeBlocks text) /\
  (forall t, t ∈ writes m \/ lastWritten m = Some t ->
             t <> [] /\ ~ occurs fence t).

(** ** [handleLogout] *)

Inductive effect :=
| Toast (message : string)
| NavigateAfter (ms : N) (path : string).

(** [localStorage] as a map; the toast of [handleSuccess] and the delayed
    navigation are returned as what the handler asks for. *)
Definition handleLogout (storage : gmap string string)
  : gmap string string * list effect :=
  (delete "loggedInUser"%string (delete "token"%string storage),
   [Toast "User Logged out"; NavigateAfter 1000 "/login"]).

(** ** [DarkModeToggle] *)

(** [classList] is an ordered set of tokens: [add] appends a token that is
    not there yet, [remove] takes it out. *)
Definition classList_add (token : string) (tokens : list string)
  : list string :=
  if bool_decide (token ∈ tokens) then tokens else tokens ++ [token].

Definition classList_remove (token : string) (tokens : list string)
  : list string :=
  filter (fun t => t <> token) tokens.

(** The [isDark] cell and the classes of the root element. *)
Record ToggleState := mkToggleState {
  isDark : bool;
  rootClasses : list string
}.

(** The body of the [useEffect]. *)
Definition themeEffect (dark : bool) (classes : list string) : list string :=
  if dark then classList_add "dark" classes
  else classList_remove "dark" classes.

(** Mounting renders with [isDark = false] and runs the effect once. *)
Definition mountToggle (classes : list string) : ToggleState :=
  {| isDark := false; rootClasses := themeEffect false classes |}.

(** A click flips [isDark]; the effect runs because its dependency
    changed. *)
Definition clickToggle (s : ToggleState) : ToggleState :=
  let dark := negb (isDark s) in
  {| isDark := dark; rootClasses := themeEffect dark (rootClasses s) |}.

Definition clicks (n : nat) (s : ToggleState) : ToggleState :=
  Nat.iter n clickToggle s.

Inductive toggleLabel := DarkLabel | LightLabel.

Definition label (s : ToggleState) : toggleLabel :=
  if isDark s then DarkLabel else LightLabel.

(** * Properties *)

(** ** Literal matching and leftmost occurrences *)

Section Occurrences.
Implicit Types p s r pre post : jsstring.

Lemma match_literal_Some p s r :
  match_literal p s = Some r <-> s = p ++ r.
Proof.
  revert s; induction p as [|c p IH]; intros s; simpl.
  - split; congruence.
  - destruct s as [|d s]; [split; discriminate|].
    destruct (N.eqb_spec c d) as [->|Hne].
    + rewrite IH. split; congruence.
    + split; [discriminate|]. intros [=]; congruence.
Qed.

Lemma match_literal_app p r : match_literal p (p ++ r) = Some r.
Proof. by apply match_literal_Some. Qed.

Lemma match_literal_None p s :
  match_literal p s = None <-> forall r, s <> p ++ r.
Proof.
  split.
  - intros H r Hr. apply match_literal_Some in Hr. congruence.
  - intros H. destruct (match_literal p s) as [r|] eqn:E; [|done].
    apply match_literal_Some in E. by destruct (H r).
Qed.

(** The position found is an occurrence. *)
Lemma first_occurrence_occurs p s i :
  first_occurrence p s = Some i ->
  exists post, s = take i s ++ p ++ post.
Proof.
  revert i; induction s as [|a s IH]; intros i; simpl.
  - destruct (match_literal p []) as [r|] eqn:E; [|discriminate].
    intros [= <-]. apply match_literal_Some in E. by exists r.
  - destruct (match_literal p (a :: s)) as [r|] eqn:E.
    + intros [= <-]. apply match_literal_Some in E. by exists r.
    + destruct (first_occurrence p s) as [j|]; [|discriminate].
      intros [= <-]. destruct (IH j eq_refl) as [post Hpost].
      exists post. simpl. by rewrite <- Hpost.
Qed.

(** No occurrence starts before it. *)
Lemma first_occurrence_least p s i pre post :
  first_occurrence p s = Some i -> s = pre ++ p ++ post -> i <= length pre.
Proof.
  revert i pre; induction s as [|a s IH]; intros i pre; simpl.
  - destruct (match_literal p []); [|discriminate]. intros [= <-]; lia.
  - destruct (match_literal p (a :: s)) as [r|] eqn:E.
    + intros [= <-]; lia.
    + destruct (first_occurrence p s) as [j|] eqn:Ej; [|discriminate].
      intros [= <-] Hs. destruct pre as [|b pre]; simpl in Hs.
      * apply match_literal_Some in Hs. congruence.
      * injection Hs as -> Hs. simpl. apply le_n_S. by eapply IH.
Qed.

(** When nothing is found, nothing occurs. *)
Lemma first_occurrence_None p s :
  first_occurrence p s = None <-> ~ occurs p s.
Proof.
  split.
  - induction s as [|a s IH]; simpl; intros H (pre & post & Hs).
    + destruct (match_literal p []) eqn:E; [discriminate|].
      destruct pre; [|discriminate]. simpl in Hs.
      apply match_literal_Some in Hs. congruence.
    + destruct (match_literal p (a :: s)) eqn:E; [discriminate|].
      destruct (first_occurrence p s) eqn:Ej; [discriminate|].
      destruct pre as [|b pre]; simpl in Hs.
      * apply match_literal_Some in Hs. congruence.
      * injection Hs as -> Hs. apply IH; [done|]. by exists pre, post.
  - intros H. destruct (first_occurrence p s) as [i|] eqn:E; [|done].
    destruct (first_occurrence_occurs _ _ _ E) as [post Hpost].
    destruct H. by exists (take i s), post.
Qed.

Lemma first_occurrence_is_Some p s :
  occurs p s -> exists i, first_occurrence p s = Some i.
Proof.
  intros H. destruct (first_occurrence p s) as [i|] eqn:E; [by exists i|].
  by apply first_occurrence_None in E.
Qed.

Lemma first_occurrence_bound p s i :
  first_occurrence p s = Some i -> i + length p <= length s.
Proof.
  revert i; induction s as [|a s IH]; intros i; simpl.
  - destruct (match_literal p []) as [r|] eqn:E; [|discriminate].
    intros [= <-]. apply match_literal_Some in E.
    apply (f_equal length) in E. rewrite length_app in E. simpl in *. lia.
  - destruct (match_literal p (a :: s)) as [r|] eqn:E.
    + intros [= <-]. apply match_literal_Some in E.
      apply (f_equal length) in E. rewrite length_app in E. simpl in *. lia.
    + destruct (first_occurrence p s) as [j|]; [|discriminate].
      intros [= <-]. specialize (IH j eq_refl). simpl. lia.
Qed.
End Occurrences.

Section MoreOccurrences.
Implicit Types p s t pre post : jsstring.

Lemma occurs_drop p s k : occurs p (drop k s) -> occurs p s.
Proof.
  intros (pre & post & H). exists (take k s ++ pre), post.
  rewrite <- (take_drop k s) at 1. rewrite H. by rewrite <- app_assoc.
Qed.

Lemma first_occurrence_drop_None p s k :
  first_occurrence p s = None -> first_occurrence p (drop k s) = None.
Proof.
  rewrite !first_occurrence_None. intros H Hk. by apply H, (occurs_drop _ _ k).
Qed.

Lemma first_occurrence_here p post : first_occurrence p (p ++ post) = Some 0.
Proof.
  pose proof (match_literal_app p post) as H.
  destruct (p ++ post); simpl; by rewrite H.
Qed.

(** Text added at the end leaves the leftmost occurrence where it is. *)
Lemma first_occurrence_app p s t i :
  first_occurrence p s = Some i -> first_occurrence p (s ++ t) = Some i.
Proof.
  intros H.
  destruct (first_occurrence_occurs _ _ _ H) as [post Hpost].
  destruct (first_occurrence_is_Some p (s ++ t)) as [j Hj].
  { exists (take i s), (post ++ t). rewrite Hpost at 1.
    by rewrite <- !app_assoc. }
  pose proof (first_occurrence_bound _ _ _ H) as Hb.
  pose proof (first_occurrence_bound _ _ _ Hj) as Hbj.
  assert (j <= i) as Hji.
  { eapply (first_occurrence_least _ _ _ (take i s) (post ++ t)) in Hj.
    - rewrite length_take in Hj. lia.
    - rewrite Hpost at 1. by rewrite <- !app_assoc. }
  destruct (first_occurrence_occurs _ _ _ Hj) as [postj Hpostj].
  (* the occurrence at [j] ends inside [s] *)
  assert (s = take j s ++ p ++ drop (j + length p) s) as Hs.
  { rewrite <- (take_drop j s) at 1. f_equal.
    rewrite <- (take_drop (length p) (drop j s)) at 1.
    rewrite drop_drop. f_equal.
    apply (f_equal (drop j)) in Hpostj.
    rewrite (drop_app_length' (take j (s ++ t)) _ j) in Hpostj
      by (rewrite length_take, length_app; lia).
    apply (f_equal (take (length p))) in Hpostj.
    rewrite take_app_length in Hpostj. etrans; [|exact Hpostj].
    rewrite drop_app_le by lia. rewrite take_app_le; [done|].
    rewrite length_drop. lia. }
  pose proof (first_occurrence_least _ _ _ _ _ H Hs) as Hij.
  rewrite length_take in Hij. rewrite Hj. f_equal. lia.
Qed.
End MoreOccurrences.

(** ** What the pattern of one category matches *)

Section Pattern.
Variables open close : jsstring.
Implicit Types s text cap : jsstring.

(** The lazy group stops at the first closing literal. *)
Lemma lazy_group_until_first s :
  lazy_group_until close s = (fun j => take j s) <$> first_occurrence close s.
Proof.
  induction s as [|a s IH]; simpl.
  - by destruct (match_literal close []).
  - destruct (match_literal close (a :: s)); [done|].
    rewrite IH. by destruct (first_occurrence close s).
Qed.

Lemma regexp_match_no_close s :
  first_occurrence close (drop (length open) s) = None ->
  regexp_match open close s = None.
Proof.
  induction s as [|a s IH]; intros H.
  - rewrite drop_nil in H. simpl; unfold match_here.
    destruct (match_literal open []) as [r|] eqn:E; [|done].
    apply match_literal_Some in E.
    symmetry in E. apply app_eq_nil in E as [_ ->].
    by rewrite lazy_group_until_first, H.
  - assert (regexp_match open close s = None) as Hs.
    { apply IH.
      replace (drop (length open) s)
        with (drop 1 (drop (length open) (a :: s))).
      - by apply first_occurrence_drop_None.
      - rewrite drop_drop. by rewrite Nat.add_1_r. }
    simpl; unfold match_here. rewrite Hs.
    destruct (match_literal open (a :: s)) as [r|] eqn:E; [|done].
    apply match_literal_Some in E. rewrite E in H.
    rewrite drop_app_length in H.
    by rewrite lazy_group_until_first, H.
Qed.

(** The match starts at the leftmost open marker, and fails when that
    marker has no closing literal after it. *)
Lemma regexp_match_first s :
  regexp_match open close s =
    first_occurrence open s ≫= fun i =>
      lazy_group_until close (drop (i + length open) s).
Proof.
  induction s as [|a s IH].
  - simpl; unfold match_here.
    destruct (match_literal open []) as [r|] eqn:E; [|done].
    apply match_literal_Some in E.
    symmetry in E. apply app_eq_nil in E as [-> ->]. simpl.
    by destruct (match_literal close []).
  - simpl; unfold match_here.
    destruct (match_literal open (a :: s)) as [r|] eqn:E.
    + apply match_literal_Some in E. simpl.
      replace (drop (length open) (a :: s)) with r
        by (by rewrite E, drop_app_length).
      destruct (lazy_group_until close r) as [cap|] eqn:Er; [done|].
      apply regexp_match_no_close.
      rewrite lazy_group_until_first in Er.
      replace (drop (length open) s) with (drop 1 r).
      * apply first_occurrence_drop_None.
        by destruct (first_occurrence close r).
      * rewrite <- (drop_app_length open r), <- E, drop_drop.
        by rewrite Nat.add_1_r.
    + rewrite IH. by destruct (first_occurrence open s).
Qed.

Lemma regexp_match_closed text i j :
  first_occurrence open text = Some i ->
  first_occurrence close (drop (i + length open) text) = Some j ->
  regexp_match open close text =
    Some (take j (drop (i + length open) text)).
Proof.
  intros Hi Hj. rewrite regexp_match_first, Hi. simpl.
  by rewrite lazy_group_until_first, Hj.
Qed.

Lemma regexp_match_unclosed text i :
  first_occurrence open text = Some i ->
  first_occurrence close (drop (i + length open) text) = None ->
  regexp_match open close text = None.
Proof.
  intros Hi Hj. rewrite regexp_match_first, Hi. simpl.
  by rewrite lazy_group_until_first, Hj.
Qed.

Lemma regexp_match_no_open text :
  first_occurrence open text = None -> regexp_match open close text = None.
Proof. intros H. by rewrite regexp_match_first, H. Qed.
End Pattern.

(** ** Segments *)

Section Segments.
Implicit Types open text pre content rest : jsstring.

Lemma first_occurrence_exact p s i :
  first_occurrence p s = Some i ->
  first_occurrence p (take i s ++ p) = Some i.
Proof.
  intros H. destruct (first_occurrence_occurs _ _ _ H) as [post Hpost].
  destruct (first_occurrence_is_Some p (take i s ++ p)) as [k Hk].
  { exists (take i s), []. by rewrite app_nil_r. }
  rewrite Hk. f_equal.
  apply (first_occurrence_app _ _ post) in Hk.
  rewrite <- app_assoc, <- Hpost in Hk. congruence.
Qed.

(** A segment whose open marker is the leftmost one and whose content
    reaches to the first fence after it is what the pattern matches. *)
Lemma regexp_match_segment open pre content rest :
  first_occurrence open (pre ++ open) = Some (length pre) ->
  fence_free content ->
  regexp_match open fence (pre ++ open ++ content ++ fence ++ rest) =
    Some content.
Proof.
  intros Hpre Hc.
  rewrite (regexp_match_closed _ _ _ (length pre) (length content)).
  - rewrite <- length_app, app_assoc, drop_app_length.
    by rewrite take_app_length.
  - rewrite app_assoc. by apply first_occurrence_app.
  - rewrite <- length_app, app_assoc, drop_app_length.
    rewrite app_assoc. by apply first_occurrence_app.
Qed.

(** Every text with a segment splits at its leftmost open marker and the
    first fence after it. *)
Lemma has_segment_split open text :
  has_segment open text ->
  exists pre content rest,
    text = pre ++ open ++ content ++ fence ++ rest /\
    first_occurrence open (pre ++ open) = Some (length pre) /\
    fence_free content.
Proof.
  intros (pre0 & c0 & post0 & Htext).
  destruct (first_occurrence_is_Some open text) as [i Hi].
  { exists pre0, (c0 ++ fence ++ post0). by rewrite Htext. }
  pose proof (first_occurrence_least _ _ _ _ _ Hi Htext) as Hle.
  pose proof (first_occurrence_bound _ _ _ Hi) as Hb.
  destruct (first_occurrence_occurs _ _ _ Hi) as [r Hr].
  assert (length (take i text) = i) as Hlen by (rewrite length_take; lia).
  destruct (first_occurrence_is_Some fence r) as [j Hj].
  { (* the fence of the given segment lies in [r] *)
    assert (r = drop (i + length open) text) as ->.
    { rewrite Hr at 1. rewrite app_assoc.
      by rewrite drop_app_length' by (rewrite length_app; lia). }
    rewrite Htext.
    replace (pre0 ++ open ++ c0 ++ fence ++ post0)
      with ((pre0 ++ open ++ c0) ++ fence ++ post0)
      by (by rewrite <- !app_assoc).
    rewrite drop_app_le by (rewrite !length_app; lia).
    by eexists _, _. }
  destruct (first_occurrence_occurs _ _ _ Hj) as [rest Hrest].
  pose proof (first_occurrence_bound _ _ _ Hj) as Hbj.
  exists (take i text), (take j r), rest. split; [|split].
  - rewrite Hr at 1. by rewrite Hrest at 1.
  - rewrite Hlen. by apply first_occurrence_exact.
  - unfold fence_free. rewrite length_take.
    replace (j `min` length r) with j by lia.
    by apply first_occurrence_exact.
Qed.

Lemma has_segment_match open text :
  has_segment open text <-> is_Some (regexp_match open fence text).
Proof.
  split.
  - intros H. destruct (has_segment_split _ _ H)
      as (pre & content & rest & -> & Hpre & Hc).
    rewrite regexp_match_segment by done. by eexists.
  - intros [cap H]. rewrite regexp_match_first in H.
    destruct (first_occurrence open text) as [i|] eqn:Hi; [|done].
    simpl in H. rewrite lazy_group_until_first in H.
    destruct (first_occurrence fence (drop (i + length open) text))
      as [j|] eqn:Hj; [|done].
    destruct (first_occurrence_occurs _ _ _ Hi) as [r Hr].
    pose proof (first_occurrence_bound _ _ _ Hi) as Hb.
    destruct (first_occurrence_occurs _ _ _ Hj) as [rest Hrest].
    exists (take i text), (take j (drop (i + length open) text)), rest.
    rewrite <- Hrest. rewrite <- (take_drop i text) at 1. f_equal.
    rewrite <- drop_drop.
    rewrite <- (take_drop (length open) (drop i text)) at 1. f_equal.
    apply (f_equal (drop i)) in Hr.
    rewrite (drop_app_length' (take i text) _ i) in Hr
      by (rewrite length_take; lia).
    rewrite Hr. by rewrite take_app_length.
Qed.

Lemma group1_or_empty_Some cap : group1_or_empty (Some cap) = cap.
Proof. by destruct cap. Qed.

Lemma slot_extractCodeBlocks c text :
  slot c (extractCodeBlocks text) =
    group1_or_empty (regexp_match (open_marker c) fence text).
Proof. by destruct c. Qed.

Lemma slot_segment c pre content rest :
  first_occurrence (open_marker c) (pre ++ open_marker c)
    = Some (length pre) ->
  fence_free content ->
  slot c (extractCodeBlocks
            (pre ++ open_marker c ++ content ++ fence ++ rest)) = content.
Proof.
  intros Hpre Hc. rewrite slot_extractCodeBlocks.
  by rewrite regexp_match_segment, group1_or_empty_Some.
Qed.

Lemma slot_no_segment c text :
  ~ has_segment (open_marker c) text ->
  slot c (extractCodeBlocks text) = [].
Proof.
  intros H. rewrite slot_extractCodeBlocks.
  destruct (regexp_match (open_marker c) fence text) eqn:E; [|done].
  destruct H. apply has_segment_match. by eexists.
Qed.
End Segments.

(** ** Extraction *)

(** C1. Extraction is total: every text yields a record of three strings; a
    category with no fenced segment in the text gets the empty string; the
    empty text gives three empty strings. *)
Theorem extraction_total :
  (forall text, exists h c j,
      extractCodeBlocks text = {| html := h; css := c; js := j |}) /\
  (forall text c,
      ~ has_segment (open_marker c) text ->
      slot c (extractCodeBlocks text) = []) /\
  extractCodeBlocks [] = {| html := []; css := []; js := [] |}.
Proof.
  split; [|split].
  - intros text. by eexists _, _, _.
  - intros text c. apply slot_no_segment.
  - reflexivity.
Qed.

Lemma extraction_total_witness :
  ~ has_segment (open_marker Markup) prose_only /\
  slot Markup (extractCodeBlocks prose_only) = [].
Proof.
  assert (~ has_segment (open_marker Markup) prose_only) as H.
  { rewrite has_segment_match. vm_compute. intros [cap E]. discriminate E. }
  split; [exact H|].
  exact (proj1 (proj2 extraction_total) prose_only Markup H).
Defined.

(** C2. First match, shortest capture: a text with two or more segments of
    a category splits at its leftmost open marker and at the first fence
    after that marker; the slot is exactly what lies between the two, and
    whatever follows that fence, later segments included, has no effect. *)
Theorem first_match_wins c text :
  has_two_segments (open_marker c) text ->
  exists pre first rest,
    text = pre ++ open_marker c ++ first ++ fence ++ rest /\
    first_occurrence (open_marker c) (pre ++ open_marker c)
      = Some (length pre) /\
    fence_free first /\
    slot c (extractCodeBlocks text) = first /\
    forall rest',
      slot c (extractCodeBlocks
                (pre ++ open_marker c ++ first ++ fence ++ rest')) = first.
Proof.
  intros (pre0 & x & between & y & post & Htext).
  destruct (has_segment_split (open_marker c) text)
    as (pre & first & rest & -> & Hpre & Hfirst).
  { exists pre0, x, (between ++ open_marker c ++ y ++ fence ++ post).
    by rewrite Htext. }
  exists pre, first, rest. repeat split; try done.
  - by apply slot_segment.
  - intros rest'. by apply slot_segment.
Qed.

Lemma first_match_wins_witness :
  has_two_segments (open_marker Markup) two_html /\
  exists pre first rest,
    two_html = pre ++ open_marker Markup ++ first ++ fence ++ rest /\
    first_occurrence (open_marker Markup) (pre ++ open_marker Markup)
      = Some (length pre) /\
    fence_free first /\
    slot Markup (extractCodeBlocks two_html) = first /\
    forall rest',
      slot Markup (extractCodeBlocks
                     (pre ++ open_marker Markup ++ first ++ fence ++ rest'))
      = first.
Proof.
  assert (has_two_segments (open_marker Markup) two_html) as H.
  { exists (lit "Here you go:" ++ nl), (lit "<p>one</p>" ++ nl),
      (nl ++ lit "or" ++ nl), (lit "<p>two</p>" ++ nl), [].
    reflexivity. }
  split; [exact H|].
  exact (first_match_wins Markup two_html H).
Defined.

Example two_html_keeps_first :
  slot Markup (extractCodeBlocks two_html) = lit "<p>one</p>" ++ nl.
Proof. reflexivity. Qed.

Section Captured.
Implicit Types p s : jsstring.

(** Nothing of [p] lies wholly before its leftmost occurrence. *)
Lemma no_occurrence_before p s j :
  first_occurrence p s = Some j -> 0 < length p -> ~ occurs p (take j s).
Proof.
  intros Hj Hp (pre & post & H).
  pose proof (first_occurrence_bound _ _ _ Hj) as Hb.
  assert (s = pre ++ p ++ (post ++ drop j s)) as Hs.
  { rewrite <- (take_drop j s) at 1. rewrite H. by rewrite <- !app_assoc. }
  pose proof (first_occurrence_least _ _ _ _ _ Hj Hs) as Hle.
  apply (f_equal length) in H.
  rewrite length_take, !length_app in H. lia.
Qed.

Lemma captured_has_no_close open close s cap :
  0 < length close ->
  regexp_match open close s = Some cap -> ~ occurs close cap.
Proof.
  intros Hc H. rewrite regexp_match_first in H.
  destruct (first_occurrence open s) as [i|]; [|done]. simpl in H.
  rewrite lazy_group_until_first in H.
  destruct (first_occurrence close (drop (i + length open) s))
    as [j|] eqn:Hj; [|done].
  injection H as <-. by apply no_occurrence_before.
Qed.

Lemma not_occurs_nil p : 0 < length p -> ~ occurs p [].
Proof.
  intros Hp (pre & post & H). apply (f_equal length) in H.
  rewrite !length_app in H. simpl in H. lia.
Qed.
End Captured.

(** C7. No trimming: when a category's segment is present the slot is the
    very substring between the leftmost open marker and the first fence
    after it, in full length, whitespace at either end included; on the
    text of the end-to-end scenario the three slots keep the newline that
    precedes the closing fence. *)
Theorem whitespace_preserved :
  (forall c text i j,
      first_occurrence (open_marker c) text = Some i ->
      first_occurrence fence (drop (i + length (open_marker c)) text)
        = Some j ->
      slot c (extractCodeBlocks text)
        = take j (drop (i + length (open_marker c)) text) /\
      length (slot c (extractCodeBlocks text)) = j) /\
  extractCodeBlocks scenario =
    {| html := lit "<h1>Hi</h1>" ++ nl;
       css := lit "h1{color:red}" ++ nl;
       js := lit "console.log(1)" ++ nl |}.
Proof.
  split; [|reflexivity].
  intros c text i j Hi Hj.
  rewrite slot_extractCodeBlocks, (regexp_match_closed _ _ _ i j) by done.
  rewrite group1_or_empty_Some. split; [done|].
  pose proof (first_occurrence_bound _ _ _ Hj). rewrite length_take. lia.
Qed.

Lemma whitespace_preserved_witness :
  first_occurrence (open_marker Behavior) padded = Some 0 /\
  first_occurrence fence (drop (0 + length (open_marker Behavior)) padded)
    = Some 17 /\
  slot Behavior (extractCodeBlocks padded)
    = nl ++ lit "  let x = 1;  " ++ nl ++ nl.
Proof.
  split; [reflexivity|]. split; [reflexivity|].
  exact (proj1 (proj1 whitespace_preserved Behavior padded 0 17
                  eq_refl eq_refl)).
Defined.

(** C8. No slot ever holds three consecutive backticks: the capture ends at
    the first closing fence, and the fence is three backticks. *)
Theorem slots_hold_no_fence text c :
  fence = [backtick; backtick; backtick] /\
  ~ occurs fence (slot c (extractCodeBlocks text)).
Proof.
  split; [reflexivity|].
  rewrite slot_extractCodeBlocks.
  destruct (regexp_match (open_marker c) fence text) as [cap|] eqn:E.
  - rewrite group1_or_empty_Some.
    eapply captured_has_no_close; [|exact E]. vm_compute; lia.
  - apply not_occurs_nil. vm_compute; lia.
Qed.

(** C9. An unclosed segment captures nothing: when no fence follows the
    leftmost open marker of a category, the slot is empty. *)
Theorem unclosed_segment_is_empty text c i :
  first_occurrence (open_marker c) text = Some i ->
  ~ occurs fence (drop (i + length (open_marker c)) text) ->
  slot c (extractCodeBlocks text) = [].
Proof.
  intros Hi Hnone. rewrite slot_extractCodeBlocks.
  rewrite (regexp_match_unclosed _ _ _ i); [done|done|].
  by apply first_occurrence_None.
Qed.

Lemma unclosed_segment_is_empty_witness :
  first_occurrence (open_marker Markup) unclosed = Some 0 /\
  ~ occurs fence (drop (0 + length (open_marker Markup)) unclosed) /\
  slot Markup (extractCodeBlocks unclosed) = [].
Proof.
  assert (~ occurs fence (drop (0 + length (open_marker Markup)) unclosed))
    as H by (apply first_occurrence_None; reflexivity).
  split; [reflexivity|]. split; [exact H|].
  exact (unclosed_segment_is_empty unclosed Markup 0 eq_refl H).
Defined.

(** C10. The open marker is the fence, the tag and one newline: a text in
    which that sequence does not occur leaves the slot empty, as when the
    tag is followed by a space, by more text on the line, or by a carriage
    return before the newline. *)
Theorem marker_needs_newline :
  (forall c, open_marker c = fence ++ tag c ++ nl) /\
  (forall c text,
      ~ occurs (fence ++ tag c ++ nl) text ->
      slot c (extractCodeBlocks text) = []) /\
  slot Markup (extractCodeBlocks marker_then_space) = [] /\
  slot Markup (extractCodeBlocks marker_then_text) = [] /\
  slot Markup (extractCodeBlocks marker_then_crlf) = [].
Proof.
  split; [by intros []|]. split; [|by repeat split].
  intros c text H.
  rewrite slot_extractCodeBlocks, regexp_match_no_open; [done|].
  apply first_occurrence_None. by destruct c.
Qed.

Lemma marker_needs_newline_witness :
  ~ occurs (fence ++ tag Markup ++ nl) marker_then_crlf /\
  slot Markup (extractCodeBlocks marker_then_crlf) = [].
Proof.
  assert (~ occurs (fence ++ tag Markup ++ nl) marker_then_crlf) as H
    by (apply first_occurrence_None; reflexivity).
  split; [exact H|].
  exact (proj1 (proj2 marker_needs_newline) Markup marker_then_crlf H).
Defined.

(** ** Writing the artifacts back *)

Section RoundTrip.
Implicit Types x s rest : jsstring.


(** [fence_free] in words: no three consecutive backticks inside, and no
    backtick at the end that would join the closing fence. *)
Lemma fence_free_iff x :
  fence_free x <-> ~ occurs fence x /\ last x <> Some backtick.
Proof.
  unfold fence_free. split.
  - intros H. split.
    + pose proof (no_occurrence_before _ _ _ H) as Hno.
      rewrite take_app_length in Hno. apply Hno. vm_compute; lia.
    + intros Hlast. apply last_Some in Hlast as [x' ->].
      assert ((x' ++ [backtick]) ++ fence = x' ++ fence ++ [backtick])
        as Hs by (by rewrite <- app_assoc).
      pose proof (first_occurrence_least _ _ _ _ _ H Hs) as Hle.
      rewrite length_app in Hle. simpl in Hle. lia.
  - intros [Hno Hlast]. induction x as [|a x IH]; [reflexivity|].
    assert (match_literal fence ((a :: x) ++ fence) = None) as Hhere.
    { apply match_literal_None. intros r Hr.
      change fence with [backtick; backtick; backtick] in Hr.
      destruct x as [|c [|d [|e x]]]; simpl in Hr; simplify_eq;
        try (by destruct Hlast).
      apply Hno. by exists [], (e :: x). }
    simpl in *. rewrite Hhere. rewrite IH; [done| |].
    + intros (pre & post & ->). apply Hno. by exists (a :: pre), post.
    + destruct x; [done|]. done.
Qed.

(** Start positions at which the open marker fails are passed over. *)
Lemma regexp_match_skip open close pre s :
  (forall k, k < length pre ->
             match_literal open (drop k (pre ++ s)) = None) ->
  regexp_match open close (pre ++ s) = regexp_match open close s.
Proof.
  induction pre as [|a pre IH]; intros H; [done|].
  simpl. unfold match_here.
  pose proof (H 0 ltac:(simpl; lia)) as H0. simpl in H0. rewrite H0.
  apply IH. intros k Hk. apply (H (S k)). simpl. lia.
Qed.

Lemma open_marker_starts_with_fence c s r :
  match_literal (open_marker c) s = Some r ->
  match_literal fence s = Some (tag c ++ nl ++ r).
Proof.
  rewrite !match_literal_Some. intros ->. by destruct c.
Qed.

(** No open marker starts inside fence-free content. *)
Lemma no_marker_in_content c x rest k :
  fence_free x -> k < length x ->
  match_literal (open_marker c) (drop k (x ++ fence ++ rest)) = None.
Proof.
  intros Hx Hk.
  destruct (match_literal (open_marker c) (drop k (x ++ fence ++ rest)))
    as [r|] eqn:E; [|done].
  apply open_marker_starts_with_fence, match_literal_Some in E.
  assert (x ++ fence ++ rest
          = take k (x ++ fence ++ rest) ++ fence ++ tag c ++ nl ++ r) as Hs.
  { rewrite <- E. by rewrite take_drop. }
  apply (first_occurrence_app _ _ rest) in Hx.
  rewrite <- app_assoc in Hx.
  pose proof (first_occurrence_least _ _ _ _ _ Hx Hs) as Hle.
  rewrite length_take in Hle. lia.
Qed.


Lemma regexp_match_leading_segment c x rest :
  fence_free x ->
  regexp_match (open_marker c) fence (open_marker c ++ x ++ fence ++ rest)
  = Some x.
Proof.
  intros Hx. apply (regexp_match_segment _ []); [|done]. by destruct c.
Qed.
End RoundTrip.




Example round_trip_of_scenario :
  extractCodeBlocks (canonical (extractCodeBlocks scenario))
  = extractCodeBlocks scenario.
Proof. reflexivity. Qed.

(** ** The preview document *)

Lemma srcDoc_template code :
  srcDoc code =
    before_style ++ css code ++ style_to_markup ++ html code ++
    markup_to_behavior ++ js code ++ behavior_to_linkScript ++
    linkScript ++ after_linkScript.
Proof. reflexivity. Qed.

(** C3. The preview document is the fixed template with one copy of each
    artifact and of the link script, in the order style, markup, behavior,
    link script, whatever the artifacts hold, empty ones included. *)
Theorem composition_order :
  (forall code,
      renderPreview Preview code =
        Iframe (before_style ++ css code ++
                style_to_markup ++ html code ++
                markup_to_behavior ++ js code ++
                behavior_to_linkScript ++ linkScript ++
                after_linkScript)) /\
  renderPreview Preview {| html := []; css := []; js := [] |} =
    Iframe (before_style ++ style_to_markup ++ markup_to_behavior ++
            behavior_to_linkScript ++ linkScript ++ after_linkScript).
Proof.
  split; [intros code|]; unfold renderPreview; by rewrite srcDoc_template.
Qed.


(** * The rest of the panel *)

(** ** [trim] *)

Section Trim.
Implicit Types s : jsstring.

Lemma trimStart_nil s : trimStart s = [] <-> all_whitespace s.
Proof.
  unfold all_whitespace. induction s as [|c s IH]; simpl.
  - split; [constructor|done].
  - destruct (is_whitespace c) eqn:E.
    + rewrite IH. split; [by constructor|by inversion 1].
    + split; [done|]. inversion 1; congruence.
Qed.

Lemma trimStart_suffix s : exists ws, s = ws ++ trimStart s /\ all_whitespace ws.
Proof.
  induction s as [|c s (ws & Hs & Hws)]; simpl.
  - exists []. split; [done|constructor].
  - destruct (is_whitespace c) eqn:E.
    + exists (c :: ws). split; [simpl; congruence|by constructor].
    + exists []. split; [done|constructor].
Qed.

Lemma reverse_eq_nil s : reverse s = [] -> s = [].
Proof. intros H. by rewrite <- (reverse_involutive s), H. Qed.

(** A string trims to nothing exactly when it is white space throughout. *)
Lemma trim_nil s : trim s = [] <-> all_whitespace s.
Proof.
  unfold trim, trimEnd. split.
  - intros H. apply reverse_eq_nil, trimStart_nil in H.
    unfold all_whitespace in *. apply (proj1 (Forall_reverse _ _)) in H.
    destruct (trimStart_suffix s) as (ws & Hs & Hws).
    rewrite Hs. apply Forall_app. by split.
  - intros H. apply trimStart_nil in H. by rewrite H.
Qed.

Lemma truthy_trim s : truthy (trim s) = false <-> all_whitespace s.
Proof.
  rewrite <- trim_nil. destruct (trim s); simpl; split; congruence.
Qed.
End Trim.

(** ** [handleSubmit] *)

(** X1. [handleSubmit] returns early, changing nothing and posting nothing,
    exactly when the prompt is white space throughout or a request is
    loading, which is also exactly when the Generate button is disabled;
    otherwise it posts the prompt as typed, untrimmed, and records it. *)
Theorem handleSubmit_guard s :
  ((handleSubmit s).2 = None <->
     all_whitespace (prompt s) \/ loading s = true) /\
  (generateDisabled s = true <-> (handleSubmit s).2 = None) /\
  ((handleSubmit s).2 = None -> (handleSubmit s).1 = s) /\
  (forall body,
      (handleSubmit s).2 = Some body ->
      body = prompt s /\
      (handleSubmit s).1 =
        {| prompt := prompt s; lastPrompt := prompt s; code := code s;
           activeTab := activeTab s; showSplitLayout := true;
           copied := copied s; loading := true |}).
Proof.
  unfold handleSubmit, generateDisabled.
  destruct (truthy (trim (prompt s))) eqn:Ht; simpl.
  - destruct (loading s) eqn:Hl; simpl.
    + split; [split; [by right|done]|].
      split; [done|]. split; [done|]. intros body [=].
    + split.
      { split; [done|]. intros [H|H]; [|done].
        apply truthy_trim in H. congruence. }
      split; [done|]. split; [done|]. by intros body [= <-].
  - split; [split; [intros _; left; by apply truthy_trim|done]|].
    split; [done|]. split; [done|]. intros body [=].
Qed.

Lemma handleSubmit_guard_witness :
  (handleSubmit (setPrompt (lit "  ") initialState)).2 = None /\
  (handleSubmit (setPrompt (lit "  ") initialState)).1
    = setPrompt (lit "  ") initialState.
Proof.
  split; [reflexivity|].
  exact (proj1 (proj2 (proj2
           (handleSubmit_guard (setPrompt (lit "  ") initialState))))
           eq_refl).
Defined.

(** ** The panel as a transition system *)

Section Panel.
Implicit Types (m : System) (s : PanelState) (e : event) (t text : jsstring).

Lemma extracted_slot_fence_free text c :
  ~ occurs fence (slot c (extractCodeBlocks text)).
Proof.
  assert (0 < length fence) as Hlen by (vm_compute; lia).
  rewrite slot_extractCodeBlocks.
  destruct (regexp_match (open_marker c) fence text) as [cap|] eqn:E.
  - rewrite group1_or_empty_Some. by eapply captured_has_no_close.
  - by apply not_occurs_nil.
Qed.

Lemma handleCopy_slot s t :
  handleCopy s = Some t -> t <> [] /\ exists c, t = slot c (code s).
Proof.
  unfold handleCopy. destruct (activeTab s); simpl; try done.
  - destruct (html (code s)) eqn:E; [done|]. intros [= <-].
    split; [done|]. by exists Markup.
  - destruct (css (code s)) eqn:E; [done|]. intros [= <-].
    split; [done|]. by exists Style.
  - destruct (js (code s)) eqn:E; [done|]. intros [= <-].
    split; [done|]. by exists Behavior.
Qed.

Lemma truthy_trim_nonempty t : truthy (trim t) = true -> truthy t = true.
Proof. by destruct t. Qed.

Lemma initial_invariant : panel_invariant initialSystem.
Proof.
  repeat split; try done.
  - by exists [].
  - destruct H as [H|H]; [by apply elem_of_nil in H|done].
  - destruct H as [H|H]; [by apply elem_of_nil in H|done].
Qed.

Ltac panel_parts :=
  unfold panel_invariant; simpl;
  split; [|split; [|split; [|split]]];
  try done; try assumption;
  try match goal with
      | Hl : loading _ = _ |- context [loading _] => rewrite Hl
      end;
  try done; try assumption;
  try match goal with
      | H : showSplitLayout ?u = false -> _
        |- showSplitLayout ?u = false -> _ =>
          let Hs := fresh in
          intros Hs; destruct (H Hs) as (? & ? & ? & ?);
          repeat split; congruence
      end.

Lemma step_invariant m e m' :
  panel_invariant m -> step m e = Some m' -> panel_invariant m'.
Proof.
  intros (Hflight & Hsplit & Hinit & Hcode & Hclip) Hstep.
  destruct e as [v| |r|tb| | | |]; simpl in Hstep.
  - (* Input *)
    destruct (loading (ui m)) eqn:Hl; [done|]. injection Hstep as <-.
    panel_parts.
  - (* Submit *)
    unfold handleSubmit in Hstep.
    destruct (truthy (trim (prompt (ui m)))) eqn:Ht; simpl in Hstep.
    + destruct (loading (ui m)) eqn:Hl; simpl in Hstep;
        injection Hstep as <-; panel_parts.
      * by rewrite app_nil_r.
      * by rewrite Hflight.
    + injection Hstep as <-. panel_parts. by rewrite app_nil_r.
  - (* Settle *)
    destruct (inflight m) as [|p rest] eqn:Hin; [done|].
    injection Hstep as <-.
    destruct (loading (ui m)) eqn:Hl; [|done]. injection Hflight as -> ->.
    assert (showSplitLayout (ui m) = true) as Hshow.
    { destruct (showSplitLayout (ui m)) eqn:E; [done|].
      destruct (Hinit eq_refl) as (_ & ? & _). congruence. }
    panel_parts.
    + by destruct r.
    + destruct r; simpl; congruence.
    + destruct r as [text|]; simpl; [by exists text|done].
  - (* SelectTab *)
    destruct (showSplitLayout (ui m)) eqn:Hshow; [|by destruct tb].
    destruct tb; try done; injection Hstep as <-; panel_parts;
      intros; congruence.
  - (* CopyClick *)
    destruct (showSplitLayout (ui m) && copyButtonShown (ui m)); [|done].
    injection Hstep as <-. panel_parts.
    intros t [H|H]; [|by apply Hclip; right].
    apply elem_of_app in H as [H|H]; [by apply Hclip; left|].
    destruct (handleCopy (ui m)) as [t'|] eqn:E; [|by apply elem_of_nil in H].
    apply list_elem_of_singleton in H as ->.
    apply handleCopy_slot in E as [Hne [c ->]]. split; [done|].
    destruct Hcode as [text ->]. apply extracted_slot_fence_free.
  - (* ClipboardDone *)
    destruct (writes m) as [|w rest] eqn:Hw; [done|].
    injection Hstep as <-. panel_parts.
    intros t [H|[= <-]]; apply Hclip; left;
      [by apply list_elem_of_further|by apply list_elem_of_here].
  - (* ClipboardRefused *)
    destruct (writes m) as [|w rest] eqn:Hw; [done|].
    injection Hstep as <-. panel_parts.
    intros t [H|H]; apply Hclip;
      [left; by apply list_elem_of_further|by right].
  - (* CopiedTimeout *)
    destruct (timers m) as [|n]; [done|].
    injection Hstep as <-. panel_parts.
Qed.

Lemma run_invariant m es m' :
  panel_invariant m -> run m es = Some m' -> panel_invariant m'.
Proof.
  revert m; induction es as [|e es IH]; intros m Hm; simpl.
  - by intros [= <-].
  - destruct (step m e) as [m1|] eqn:E; [|done].
    apply IH. by eapply step_invariant.
Qed.

Lemma reachable_invariant m : reachable m -> panel_invariant m.
Proof.
  intros [es Hes]. eapply run_invariant; [apply initial_invariant|done].
Qed.
End Panel.

(** X2. At most one request is ever in flight: the panel is loading exactly
    when one request is pending, that request carries the prompt kept in
    [lastPrompt], and no request carries a prompt that is white space
    throughout. *)
Theorem single_request_in_flight m :
  reachable m ->
  length (inflight m) <= 1 /\
  (loading (ui m) = true <-> inflight m = [lastPrompt (ui m)]) /\
  (loading (ui m) = false <-> inflight m = []) /\
  (forall body, body ∈ inflight m -> ~ all_whitespace body).
Proof.
  intros Hm.
  destruct (reachable_invariant m Hm) as (Hflight & Hsplit & Hinit & _).
  rewrite Hflight. destruct (loading (ui m)) eqn:Hl; simpl.
  - split; [lia|]. split; [done|]. split; [done|].
    intros body Hbody. apply list_elem_of_singleton in Hbody as ->.
    rewrite <- truthy_trim, <- Hsplit.
    destruct (showSplitLayout (ui m)) eqn:Hshow; [done|].
    destruct (Hinit eq_refl) as (_ & ? & _). congruence.
  - split; [lia|]. split; [done|]. split; [done|].
    intros body Hbody. by apply elem_of_nil in Hbody.
Qed.

Lemma single_request_in_flight_witness :
  reachable awaiting_answer /\
  length (inflight awaiting_answer) <= 1 /\
  (loading (ui awaiting_answer) = true <->
     inflight awaiting_answer = [lastPrompt (ui awaiting_answer)]) /\
  (loading (ui awaiting_answer) = false <-> inflight awaiting_answer = []) /\
  (forall body, body ∈ inflight awaiting_answer -> ~ all_whitespace body).
Proof.
  assert (reachable awaiting_answer) as H
    by (exists [Input (lit "a greeting page"); Submit]; reflexivity).
  split; [exact H|]. exact (single_request_in_flight awaiting_answer H).
Defined.

(** X3. The split layout is shown exactly when a prompt has been submitted,
    and it then shows exactly one status line: "Creating" while loading,
    "Ready" otherwise. Before the first submission the panel is in its
    initial state but for what has been typed. *)
Theorem layout_and_status m :
  reachable m ->
  (showSplitLayout (ui m) = true <-> ~ all_whitespace (lastPrompt (ui m))) /\
  (showSplitLayout (ui m) = true ->
   statusMessage (ui m) = [if loading (ui m) then Creating else Ready]) /\
  (showSplitLayout (ui m) = false ->
   statusMessage (ui m) = [] /\ inflight m = [] /\
   activeTab (ui m) = Website /\ code (ui m) = code initialState).
Proof.
  intros Hm.
  destruct (reachable_invariant m Hm) as (Hflight & Hsplit & Hinit & _).
  split; [|split].
  - rewrite Hsplit, <- truthy_trim.
    by destruct (truthy (trim (lastPrompt (ui m)))).
  - intros Hshow. rewrite Hshow in Hsplit. symmetry in Hsplit.
    apply truthy_trim_nonempty in Hsplit. unfold statusMessage.
    rewrite Hsplit. by destruct (loading (ui m)).
  - intros Hshow. destruct (Hinit Hshow) as (Htab & Hl & Hlast & Hcode).
    unfold statusMessage. rewrite Hflight, Hl, Hlast. done.
Qed.

Lemma layout_and_status_witness :
  reachable awaiting_answer /\
  showSplitLayout (ui awaiting_answer) = true /\
  statusMessage (ui awaiting_answer) = [Creating].
Proof.
  assert (reachable awaiting_answer) as H
    by (exists [Input (lit "a greeting page"); Submit]; reflexivity).
  split; [exact H|]. split; [reflexivity|].
  exact (proj1 (proj2 (layout_and_status awaiting_answer H)) eq_refl).
Defined.

(** X4. A failed generation changes no artifact and no tab: the panel stops
    loading, clears the prompt, has nothing left in flight, and its status
    line reads "Ready" all the same. *)
Theorem failed_generation m m' :
  reachable m ->
  step m (Settle Failed) = Some m' ->
  code (ui m') = code (ui m) /\
  activeTab (ui m') = activeTab (ui m) /\
  lastPrompt (ui m') = lastPrompt (ui m) /\
  prompt (ui m') = [] /\
  loading (ui m') = false /\
  inflight m' = [] /\
  statusMessage (ui m') = [Ready].
Proof.
  intros Hm Hstep.
  destruct (reachable_invariant m Hm) as (Hflight & Hsplit & Hinit & _).
  simpl in Hstep. destruct (inflight m) as [|p rest] eqn:Hin; [done|].
  injection Hstep as <-. simpl.
  destruct (loading (ui m)) eqn:Hl; [|done]. injection Hflight as -> ->.
  repeat split. unfold statusMessage; simpl.
  destruct (showSplitLayout (ui m)) eqn:Hshow.
  - symmetry in Hsplit. apply truthy_trim_nonempty in Hsplit.
    by rewrite Hsplit.
  - destruct (Hinit eq_refl) as (_ & ? & _). congruence.
Qed.

Lemma failed_generation_witness :
  reachable awaiting_answer /\
  (exists m', step awaiting_answer (Settle Failed) = Some m' /\
              code (ui m') = code (ui awaiting_answer) /\
              statusMessage (ui m') = [Ready]).
Proof.
  assert (reachable awaiting_answer) as H
    by (exists [Input (lit "a greeting page"); Submit]; reflexivity).
  split; [exact H|].
  eexists. split; [reflexivity|].
  pose proof (failed_generation awaiting_answer _ H eq_refl)
    as (Hc & _ & _ & _ & _ & _ & Hs).
  split; [exact Hc|exact Hs].
Defined.

(** X5. An answer replaces all three artifacts at once by what is
    extracted from it: a category that has no segment in the new answer
    becomes empty, whatever artifact the panel held before; tab and last
    prompt stay, the prompt is cleared and loading ends. *)
Theorem generation_replaces_all m m' text :
  step m (Settle (Generated text)) = Some m' ->
  code (ui m') = extractCodeBlocks text /\
  (forall c, ~ has_segment (open_marker c) text ->
             slot c (code (ui m')) = []) /\
  activeTab (ui m') = activeTab (ui m) /\
  lastPrompt (ui m') = lastPrompt (ui m) /\
  prompt (ui m') = [] /\
  loading (ui m') = false.
Proof.
  simpl. destruct (inflight m) as [|p rest]; [done|].
  intros [= <-]. simpl. repeat split.
  intros c Hc. by apply slot_no_segment.
Qed.

Lemma generation_replaces_all_witness :
  step awaiting_answer (Settle (Generated style_only))
    = Some (default initialSystem
              (step awaiting_answer (Settle (Generated style_only)))) /\
  code (ui (default initialSystem
              (step awaiting_answer (Settle (Generated style_only)))))
    = {| html := []; css := lit "body{margin:0}" ++ nl; js := [] |}.
Proof.
  split; [reflexivity|].
  exact (eq_trans
           (proj1 (generation_replaces_all awaiting_answer
                     (default initialSystem
                        (step awaiting_answer (Settle (Generated style_only))))
                     style_only eq_refl))
           eq_refl).
Defined.

(** X6. In every state the three artifacts are the extraction of some
    text, so none of them holds a closing fence; and a text the panel has
    put on the clipboard is never empty and holds no fence either. *)
Theorem artifacts_and_clipboard_fence_free m :
  reachable m ->
  (exists text, code (ui m) = extractCodeBlocks text) /\
  (forall c, ~ occurs fence (slot c (code (ui m)))) /\
  (forall t, lastWritten m = Some t -> t <> [] /\ ~ occurs fence t).
Proof.
  intros Hm.
  destruct (reachable_invariant m Hm) as (_ & _ & _ & Hcode & Hclip).
  split; [done|]. split.
  - destruct Hcode as [text ->]. intros c. apply extracted_slot_fence_free.
  - intros t Ht. apply Hclip. by right.
Qed.

Lemma artifacts_and_clipboard_fence_free_witness :
  reachable after_first_session /\
  lastWritten after_first_session = Some (lit "<h1>Hi</h1>" ++ nl) /\
  ~ occurs fence (lit "<h1>Hi</h1>" ++ nl).
Proof.
  assert (reachable after_first_session) as H
    by (exists first_session; reflexivity).
  split; [exact H|]. split; [reflexivity|].
  exact (proj2 (proj2 (proj2 (artifacts_and_clipboard_fence_free
                                after_first_session H))
                 (lit "<h1>Hi</h1>" ++ nl) eq_refl)).
Defined.

(** X7. What [handleCopy] hands to the clipboard is exactly the non-empty
    text the code view is showing; the copy button is offered exactly on
    the tabs that show a code view, and on any other tab a copy writes
    nothing. *)
Theorem copy_is_what_is_shown s :
  (forall t,
      handleCopy s = Some t <->
      t <> [] /\ renderPreview (activeTab s) (code s) = CodeScroll t) /\
  (copyButtonShown s = true <->
   exists pre, renderPreview (activeTab s) (code s) = CodeScroll pre) /\
  (copyButtonShown s = false <->
   code_property (toLowerCase (tab_name (activeTab s))) (code s) = None).
Proof.
  unfold handleCopy, copyButtonShown.
  split; [|split].
  - intros t. destruct (activeTab s); simpl.
    + split; [done|]. by intros [_ ?].
    + destruct (html (code s)); split; try done;
        try (by intros [= <-]); try (by intros [? [= <-]]).
    + destruct (css (code s)); split; try done;
        try (by intros [= <-]); try (by intros [? [= <-]]).
    + destruct (js (code s)); split; try done;
        try (by intros [= <-]); try (by intros [? [= <-]]).
    + split; [done|]. by intros [_ ?].
  - destruct (activeTab s); simpl; split; try done;
      try (by intros [? ?]); by eexists.
  - by destruct (activeTab s).
Qed.

Section Tabs.
Implicit Types (m : System) (e : event).

Lemma step_activeTab m e m' :
  step m e = Some m' ->
  (activeTab (ui m') = Website <->
   activeTab (ui m) = Website /\ forall t, e <> SelectTab t).
Proof.
  destruct e as [v| |r|tb| | | |]; simpl; intros Hstep.
  - destruct (loading (ui m)); [done|]. injection Hstep as <-. simpl.
    split; [by intros ->|by intros [-> _]].
  - unfold handleSubmit in Hstep.
    destruct (negb _ || _); injection Hstep as <-; simpl;
      (split; [by intros ->|by intros [-> _]]).
  - destruct (inflight m); [done|]. injection Hstep as <-.
    destruct r; simpl; (split; [by intros ->|by intros [-> _]]).
  - destruct tb; try done; destruct (showSplitLayout (ui m)); try done;
      injection Hstep as <-; simpl;
      (split; [done|intros [_ H]; exfalso; by eapply H]).
  - destruct (_ && _); [|done]. injection Hstep as <-. simpl.
    split; [by intros ->|by intros [-> _]].
  - destruct (writes m); [done|]. injection Hstep as <-. simpl.
    split; [by intros ->|by intros [-> _]].
  - destruct (writes m); [done|]. injection Hstep as <-. simpl.
    split; [by intros ->|by intros [-> _]].
  - destruct (timers m); [done|]. injection Hstep as <-. simpl.
    split; [by intros ->|by intros [-> _]].
Qed.

Lemma run_activeTab m es m' :
  run m es = Some m' ->
  (activeTab (ui m') = Website <->
   activeTab (ui m) = Website /\ forall t, SelectTab t ∉ es).
Proof.
  revert m; induction es as [|e es IH]; intros m; simpl.
  - intros [= <-]. split; [|by intros [? _]].
    intros H. split; [done|]. intros t Ht. by apply elem_of_nil in Ht.
  - destruct (step m e) as [m1|] eqn:E; [|done]. intros Hrun.
    rewrite (IH _ Hrun), (step_activeTab _ _ _ E). split.
    + intros [[H0 He] Hes]. split; [done|]. intros t Ht.
      apply elem_of_cons in Ht as [Ht|Ht]; [by destruct (He t)|].
      by destruct (Hes t).
    + intros [H0 Hall]. split; [split; [done|]|].
      * intros t ->. destruct (Hall t). apply list_elem_of_here.
      * intros t Ht. destruct (Hall t). by apply list_elem_of_further.
Qed.
End Tabs.

(** X8. The pane of the split layout stays empty until a tab is clicked:
    after any run of events [renderPreview] returns no element exactly when
    no tab button was clicked in it, however many answers have arrived; and
    once a tab was clicked it returns an element ever after. *)
Theorem pane_empty_until_tab_chosen es m :
  run initialSystem es = Some m ->
  (renderPreview (activeTab (ui m)) (code (ui m)) = NoElement <->
   forall t, SelectTab t ∉ es).
Proof.
  intros Hrun. pose proof (run_activeTab _ _ _ Hrun) as H. simpl in H.
  assert (renderPreview (activeTab (ui m)) (code (ui m)) = NoElement <->
          activeTab (ui m) = Website) as ->
    by (by destruct (activeTab (ui m))).
  rewrite H. split; [by intros [_ ?]|done].
Qed.

Lemma pane_empty_until_tab_chosen_witness :
  run initialSystem
    [Input (lit "a greeting page"); Submit; Settle (Generated scenario)]
    = Some (default initialSystem
              (run initialSystem
                 [Input (lit "a greeting page"); Submit;
                  Settle (Generated scenario)])) /\
  renderPreview
    (activeTab (ui (default initialSystem
                      (run initialSystem
                         [Input (lit "a greeting page"); Submit;
                          Settle (Generated scenario)]))))
    (code (ui (default initialSystem
                 (run initialSystem
                    [Input (lit "a greeting page"); Submit;
                     Settle (Generated scenario)]))))
    = NoElement.
Proof.
  split; [reflexivity|].
  apply (pane_empty_until_tab_chosen
           [Input (lit "a greeting page"); Submit;
            Settle (Generated scenario)]); [reflexivity|].
  intros t Ht. repeat (apply elem_of_cons in Ht as [Ht|Ht]; [done|]).
  by apply elem_of_nil in Ht.
Defined.

(** X9. While a request is loading, nothing but its answer changes the
    prompt, the last prompt, the artifacts or the loading flag, and no
    further request is posted: typing is disabled and submitting is
    ignored. *)
Theorem frozen_while_loading m e m' :
  loading (ui m) = true ->
  step m e = Some m' ->
  (forall r, e <> Settle r) ->
  prompt (ui m') = prompt (ui m) /\
  lastPrompt (ui m') = lastPrompt (ui m) /\
  code (ui m') = code (ui m) /\
  loading (ui m') = true /\
  inflight m' = inflight m.
Proof.
  intros Hl Hstep Hne.
  destruct e as [v| |r|tb| | | |]; simpl in Hstep.
  - by rewrite Hl in Hstep.
  - unfold handleSubmit in Hstep. rewrite Hl, orb_true_r in Hstep.
    injection Hstep as <-. simpl. by rewrite app_nil_r.
  - by destruct (Hne r).
  - destruct tb; try done; destruct (showSplitLayout (ui m)); try done;
      by injection Hstep as <-.
  - destruct (_ && _); [|done]. by injection Hstep as <-.
  - destruct (writes m); [done|]. by injection Hstep as <-.
  - destruct (writes m); [done|]. by injection Hstep as <-.
  - destruct (timers m); [done|]. by injection Hstep as <-.
Qed.

Lemma frozen_while_loading_witness :
  loading (ui awaiting_answer) = true /\
  step awaiting_answer Submit = Some awaiting_answer /\
  (forall r, Submit <> Settle r) /\
  loading (ui awaiting_answer) = true /\
  inflight awaiting_answer = inflight awaiting_answer.
Proof.
  assert (forall r, Submit <> Settle r) as H by discriminate.
  split; [reflexivity|]. split; [reflexivity|]. split; [exact H|].
  exact (proj2 (proj2 (proj2
           (frozen_while_loading awaiting_answer Submit awaiting_answer
              eq_refl eq_refl H)))).
Defined.

(** ** [handleLogout] *)

(** X10. Logging out removes the two session keys from [localStorage] and
    touches no other key; it asks for the toast and for the navigation to
    the login page one second later; a second logout changes nothing
    more. *)
Theorem logout_clears_session_only storage :
  (handleLogout storage).1 !! "token"%string = None /\
  (handleLogout storage).1 !! "loggedInUser"%string = None /\
  (forall key : string,
      key <> "token"%string -> key <> "loggedInUser"%string ->
      (handleLogout storage).1 !! key = storage !! key) /\
  (handleLogout (handleLogout storage).1).1 = (handleLogout storage).1 /\
  (handleLogout storage).2
    = [Toast "User Logged out"; NavigateAfter 1000 "/login"].
Proof.
  unfold handleLogout; simpl. split; [|split; [|split; [|split]]].
  - rewrite lookup_delete_ne by done. apply lookup_delete_eq.
  - apply lookup_delete_eq.
  - intros key H1 H2. by rewrite !lookup_delete_ne.
  - apply map_eq. intros key.
    destruct (decide (key = "loggedInUser"%string)) as [->|H2].
    { by rewrite !lookup_delete_eq. }
    destruct (decide (key = "token"%string)) as [->|H1].
    { rewrite !(lookup_delete_ne _ "loggedInUser"%string) by done.
      by rewrite !lookup_delete_eq. }
    by rewrite !lookup_delete_ne.
  - reflexivity.
Qed.

Lemma logout_clears_session_only_witness :
  (handleLogout
     (<["theme"%string := "dark"%string]>
        (<["token"%string := "abc"%string]> ∅))).1 !! "theme"%string
  = Some "dark"%string.
Proof.
  rewrite (proj1 (proj2 (proj2 (logout_clears_session_only _))))
    by discriminate.
  apply lookup_insert_eq.
Defined.

(** ** [DarkModeToggle] *)

Section Toggle.
Implicit Types (classes : list string) (n : nat).

Lemma classList_remove_idemp token classes :
  classList_remove token (classList_remove token classes)
  = classList_remove token classes.
Proof.
  unfold classList_remove. induction classes as [|c classes IH]; [done|].
  rewrite (filter_cons _ c). destruct (decide (c <> token)) as [H|H].
  - rewrite filter_cons_True by done. by rewrite IH.
  - done.
Qed.

Lemma classList_remove_absent token classes :
  token ∉ classList_remove token classes.
Proof.
  unfold classList_remove. intros H. apply list_elem_of_filter in H as [H _].
  by destruct H.
Qed.

(** After mounting and [n] clicks the root holds its other classes in their
    order, followed by [dark] when [n] is odd. *)
Lemma clicks_shape classes n :
  clicks n (mountToggle classes) =
    {| isDark := Nat.odd n;
       rootClasses := classList_remove "dark" classes ++
                      (if Nat.odd n then ["dark"%string] else []) |}.
Proof.
  induction n as [|n IH].
  - simpl. by rewrite app_nil_r.
  - unfold clicks in *. simpl. rewrite IH. unfold clickToggle; simpl.
    rewrite Nat.odd_succ, <- Nat.negb_odd. f_equal.
    destruct (Nat.odd n); simpl.
    + unfold classList_remove at 1. rewrite filter_app.
      fold (classList_remove "dark" (classList_remove "dark" classes)).
      rewrite classList_remove_idemp. f_equal.
    + rewrite app_nil_r. unfold classList_add.
      rewrite bool_decide_eq_false_2; [done|].
      apply classList_remove_absent.
Qed.
End Toggle.

(** X11. The root carries the class [dark] exactly when [isDark] holds,
    that is after an odd number of clicks, and the button is labelled to
    match; mounting always starts light, whatever classes the root had. *)
Theorem dark_class_follows_clicks classes n :
  isDark (clicks n (mountToggle classes)) = Nat.odd n /\
  ("dark"%string ∈ rootClasses (clicks n (mountToggle classes)) <->
   Nat.odd n = true) /\
  (label (clicks n (mountToggle classes)) = DarkLabel <->
   "dark"%string ∈ rootClasses (clicks n (mountToggle classes))) /\
  "dark"%string ∉ rootClasses (mountToggle classes).
Proof.
  assert ("dark"%string ∈ rootClasses (clicks n (mountToggle classes)) <->
          Nat.odd n = true) as Hdark.
  { rewrite clicks_shape; simpl. rewrite elem_of_app.
    pose proof (classList_remove_absent "dark" classes) as Habs.
    destruct (Nat.odd n); split; try done.
    - intros _. right. apply list_elem_of_here.
    - intros [H|H]; [done|by apply elem_of_nil in H]. }
  split; [by rewrite clicks_shape|]. split; [done|]. split.
  - rewrite Hdark. unfold label. rewrite clicks_shape; simpl.
    by destruct (Nat.odd n).
  - apply classList_remove_absent.
Qed.

(** X12. The toggle leaves every other class of the root alone, in its
    place, and adds no duplicate; two clicks in a row bring back the very
    state they started from. *)
Theorem toggle_keeps_other_classes classes n :
  classList_remove "dark" (rootClasses (clicks n (mountToggle classes)))
    = classList_remove "dark" classes /\
  (forall c : string,
      c <> "dark"%string ->
      (c ∈ rootClasses (clicks n (mountToggle classes)) <-> c ∈ classes)) /\
  (NoDup classes -> NoDup (rootClasses (clicks n (mountToggle classes)))) /\
  clickToggle (clickToggle (clicks n (mountToggle classes)))
    = clicks n (mountToggle classes).
Proof.
  split; [|split; [|split]].
  - rewrite clicks_shape; simpl. unfold classList_remove at 1.
    rewrite filter_app.
    fold (classList_remove "dark" (classList_remove "dark" classes)).
    rewrite classList_remove_idemp. destruct (Nat.odd n); simpl.
    + change (filter (fun t : string => t <> "dark"%string) ["dark"%string])
        with (@nil string).
      by rewrite app_nil_r.
    + by rewrite filter_nil, app_nil_r.
  - intros c Hc. rewrite clicks_shape; simpl. rewrite elem_of_app.
    unfold classList_remove. rewrite list_elem_of_filter. split.
    + intros [[_ H]|H]; [done|]. destruct (Nat.odd n).
      * apply list_elem_of_singleton in H. congruence.
      * by apply elem_of_nil in H.
    + intros H. by left.
  - intros Hnd. rewrite clicks_shape; simpl. apply NoDup_app.
    split; [by apply NoDup_filter|]. split.
    + intros c Hc Hin. destruct (Nat.odd n); [|by apply elem_of_nil in Hin].
      apply list_elem_of_singleton in Hin as ->.
      by apply classList_remove_absent in Hc.
    + destruct (Nat.odd n); [apply NoDup_singleton|apply NoDup_nil_2].
  - change (clickToggle (clickToggle (clicks n (mountToggle classes))))
      with (clicks (S (S n)) (mountToggle classes)).
    rewrite !clicks_shape. by rewrite Nat.odd_succ_succ.
Qed.

Lemma toggle_keeps_other_classes_witness :
  NoDup ["app"%string; "dark"%string; "wide"%string] /\
  NoDup (rootClasses
           (clicks 3 (mountToggle
                        ["app"%string; "dark"%string; "wide"%string]))).
Proof.
  assert (NoDup ["app"%string; "dark"%string; "wide"%string]) as H
    by (apply (bool_decide_unpack _); vm_compute; exact I).
  split; [exact H|].
  exact (proj1 (proj2 (proj2
           (toggle_keeps_other_classes
              ["app"%string; "dark"%string; "wide"%string] 3))) H).
Defined.

(** ** More on [extractCodeBlocks] *)

Section Provenance.
Implicit Types (text pre cap : jsstring) (c : category).

Lemma regexp_match_is_segment open text cap :
  regexp_match open fence text = Some cap ->
  exists pre post, text = pre ++ open ++ cap ++ fence ++ post.
Proof.
  intros H. rewrite regexp_match_first in H.
  destruct (first_occurrence open text) as [i|] eqn:Hi; [|done].
  simpl in H. rewrite lazy_group_until_first in H.
  destruct (first_occurrence fence (drop (i + length open) text))
    as [j|] eqn:Hj; [|done].
  injection H as <-.
  destruct (first_occurrence_occurs _ _ _ Hi) as [r Hr].
  pose proof (first_occurrence_bound _ _ _ Hi) as Hb.
  destruct (first_occurrence_occurs _ _ _ Hj) as [post Hpost].
  exists (take i text), post.
  rewrite <- Hpost. rewrite <- (take_drop i text) at 1. f_equal.
  rewrite <- drop_drop.
  rewrite <- (take_drop (length open) (drop i text)) at 1. f_equal.
  apply (f_equal (drop i)) in Hr.
  rewrite (drop_app_length' (take i text) _ i) in Hr
    by (rewrite length_take; lia).
  rewrite Hr. by rewrite take_app_length.
Qed.

(** Start positions inside text without a backtick are passed over. *)
Lemma regexp_match_skip_prose c pre text :
  Forall (fun u => u <> backtick) pre ->
  regexp_match (open_marker c) fence (pre ++ text)
  = regexp_match (open_marker c) fence text.
Proof.
  intros Hpre. apply regexp_match_skip. intros k Hk.
  destruct (lookup_lt_is_Some_2 pre k Hk) as [u Hu].
  rewrite drop_app_le by lia. rewrite (drop_S _ _ _ Hu).
  pose proof (Forall_lookup_1 _ _ _ _ Hpre Hu) as Hne.
  apply match_literal_None. intros r Hr. apply Hne.
  destruct c; injection Hr as Hhead _; by rewrite Hhead.
Qed.
End Provenance.




(** X13. Extraction invents nothing: every slot is a contiguous piece of
    the text, and a slot that is not empty is the content of a segment of
    its category, standing in the text between that category's open marker
    and a fence. *)
Theorem slot_comes_from_text text c :
  occurs (slot c (extractCodeBlocks text)) text /\
  (slot c (extractCodeBlocks text) <> [] ->
   exists pre post,
     text = pre ++ open_marker c ++ slot c (extractCodeBlocks text)
                ++ fence ++ post).
Proof.
  rewrite slot_extractCodeBlocks.
  destruct (regexp_match (open_marker c) fence text) as [cap|] eqn:E.
  - rewrite group1_or_empty_Some.
    destruct (regexp_match_is_segment _ _ _ E) as (pre & post & Htext).
    split; [|by exists pre, post].
    exists (pre ++ open_marker c), (fence ++ post).
    by rewrite <- app_assoc.
  - simpl. split; [by exists [], text|done].
Qed.

Lemma slot_comes_from_text_witness :
  slot Style (extractCodeBlocks scenario) <> [] /\
  exists pre post,
    scenario = pre ++ open_marker Style
                   ++ slot Style (extractCodeBlocks scenario)
                   ++ fence ++ post.
Proof.
  assert (slot Style (extractCodeBlocks scenario) <> []) as H by discriminate.
  split; [exact H|]. exact (proj2 (slot_comes_from_text scenario Style) H).
Defined.

(** X14. A segment whose closing fence is missing is closed by the open
    marker of the next category, which begins with a fence: both segments
    are then extracted, the first up to that marker. *)
Theorem next_marker_closes c c' a b rest :
  c <> c' -> fence_free a -> fence_free b ->
  slot c (extractCodeBlocks
            (open_marker c ++ a ++ open_marker c' ++ b ++ fence ++ rest)) = a /\
  slot c' (extractCodeBlocks
             (open_marker c ++ a ++ open_marker c' ++ b ++ fence ++ rest)) = b.
Proof.
  intros Hc Ha Hb. rewrite !slot_extractCodeBlocks.
  assert (open_marker c' = fence ++ tag c' ++ nl) as Hshape by (by destruct c').
  split.
  - rewrite Hshape, <- !app_assoc.
    rewrite regexp_match_leading_segment by done.
    apply group1_or_empty_Some.
  - rewrite regexp_match_skip.
    2: { intros k Hk. destruct c, c'; try done;
         repeat (destruct k as [|k]; [reflexivity|]);
         simpl in Hk; lia. }
    replace (a ++ open_marker c' ++ b ++ fence ++ rest)
      with (a ++ fence ++ (tag c' ++ nl ++ b ++ fence ++ rest))
      by (by rewrite Hshape, <- !app_assoc).
    rewrite regexp_match_skip by (intros k Hk; by apply no_marker_in_content).
    replace (fence ++ tag c' ++ nl ++ b ++ fence ++ rest)
      with (open_marker c' ++ b ++ fence ++ rest)
      by (by rewrite Hshape, <- !app_assoc).
    rewrite regexp_match_leading_segment by done.
    apply group1_or_empty_Some.
Qed.

Lemma next_marker_closes_witness :
  Markup <> Style /\
  fence_free (lit "<p>hi</p>" ++ nl) /\
  fence_free (lit "p{margin:0}" ++ nl) /\
  slot Markup
    (extractCodeBlocks
       (open_marker Markup ++ (lit "<p>hi</p>" ++ nl) ++ open_marker Style ++
        (lit "p{margin:0}" ++ nl) ++ fence ++ []))
  = lit "<p>hi</p>" ++ nl.
Proof.
  assert (Markup <> Style) as H by discriminate.
  split; [exact H|]. split; [reflexivity|]. split; [reflexivity|].
  exact (proj1 (next_marker_closes Markup Style
                  (lit "<p>hi</p>" ++ nl) (lit "p{margin:0}" ++ nl) []
                  H eq_refl eq_refl)).
Defined.

(** X15. Text without a backtick in front of an answer has no effect on
    what is extracted from it. *)
Theorem leading_prose_ignored pre text :
  Forall (fun u => u <> backtick) pre ->
  extractCodeBlocks (pre ++ text) = extractCodeBlocks text.
Proof.
  intros Hpre. unfold extractCodeBlocks.
  rewrite (regexp_match_skip_prose Markup), (regexp_match_skip_prose Style),
    (regexp_match_skip_prose Behavior) by done.
  done.
Qed.

Lemma leading_prose_ignored_witness :
  Forall (fun u => u <> backtick) (lit "Sure, here it is:" ++ nl) /\
  extractCodeBlocks ((lit "Sure, here it is:" ++ nl) ++ scenario)
  = extractCodeBlocks scenario.
Proof.
  assert (Forall (fun u => u <> backtick) (lit "Sure, here it is:" ++ nl))
    as H by (repeat constructor; discriminate).
  split; [exact H|].
  exact (leading_prose_ignored (lit "Sure, here it is:" ++ nl) scenario H).
Defined.

(** ** The copy indicator *)

Lemma copied_has_timer_step m e m' :
  (copied (ui m) = true -> 0 < timers m) ->
  step m e = Some m' ->
  copied (ui m') = true -> 0 < timers m'.
Proof.
  intros Hm Hstep.
  destruct e as [v| |r|tb| | | |]; simpl in Hstep.
  - destruct (loading (ui m)); [done|]. by injection Hstep as <-.
  - unfold handleSubmit in Hstep.
    destruct (negb _ || _); by injection Hstep as <-.
  - destruct (inflight m); [done|]. injection Hstep as <-. by destruct r.
  - destruct tb; try done; destruct (showSplitLayout (ui m)); try done;
      by injection Hstep as <-.
  - destruct (_ && _); [|done]. by injection Hstep as <-.
  - destruct (writes m); [done|]. injection Hstep as <-. simpl. lia.
  - destruct (writes m); [done|]. by injection Hstep as <-.
  - destruct (timers m); [done|]. by injection Hstep as <-.
Qed.

(** X16. The "Copied!" indicator never sticks: in every state in which
    [copied] is set, a timer that resets it is still pending; and it is set
    only after a clipboard write went through. *)
Theorem copied_indicator_resets m :
  reachable m ->
  copied (ui m) = true ->
  0 < timers m /\ is_Some (lastWritten m).
Proof.
  intros [es Hes].
  assert (forall m0,
             (copied (ui m0) = true -> 0 < timers m0 /\ is_Some (lastWritten m0)) ->
             run m0 es = Some m ->
             copied (ui m) = true -> 0 < timers m /\ is_Some (lastWritten m))
    as Hrun.
  { clear Hes. induction es as [|e es IH]; intros m0 H0; simpl.
    - by intros [= <-].
    - destruct (step m0 e) as [m1|] eqn:E; [|done]. apply IH.
      intros Hc. split.
      + eapply copied_has_timer_step; [|exact E|exact Hc].
        intros H. by apply H0.
      + destruct e as [v| |r|tb| | | |]; simpl in E.
        * destruct (loading (ui m0)); [done|]. injection E as <-.
          by apply H0.
        * unfold handleSubmit in E.
          destruct (negb _ || _); injection E as <-; by apply H0.
        * destruct (inflight m0); [done|]. injection E as <-.
          destruct r; by apply H0.
        * destruct tb; try done; destruct (showSplitLayout (ui m0));
            try done; injection E as <-; by apply H0.
        * destruct (_ && _); [|done]. injection E as <-. by apply H0.
        * destruct (writes m0); [done|]. injection E as <-. by eexists.
        * destruct (writes m0); [done|]. injection E as <-. by apply H0.
        * destruct (timers m0); [done|]. by injection E as <-. }
  apply (Hrun initialSystem); [done|exact Hes].
Qed.

Lemma copied_indicator_resets_witness :
  reachable after_first_session /\
  copied (ui after_first_session) = true /\
  0 < timers after_first_session /\
  is_Some (lastWritten after_first_session).
Proof.
  assert (reachable after_first_session) as H
    by (exists first_session; reflexivity).
  split; [exact H|]. split; [reflexivity|].
  exact (copied_indicator_resets after_first_session H eq_refl).
Defined.
